(** * Bootstrapping demonstration: a shallow embedding of [streamlit-app.py]

    The computational core of the application is three functions,
    [generate_data], [resample] and [bootstrap_correlation], and three
    summary computations at top level ([np.mean], [np.percentile] and
    [np.histogram] over the bootstrap distribution).

    Numbers are modelled as real numbers extended with one "not a number"
    value.  The arithmetic inside NumPy is binary64; the model evaluates
    it exactly, and the theorems state what rounding leaves intact:
    counts, which rows are selected and in which order, and bounds that
    clipping and monotone rounding preserve.  Where a statement depends
    on the value NumPy returns, the statistic is a parameter of the loop
    ([bootstrap_loop_with]); where rounding decides it, the computation
    is carried out in binary64 itself ([F64]).
    The NumPy global generator is an explicit random source threaded
    through the computation, and NumPy arrays live in a store and are
    passed by reference, as in the program. *)

From Stdlib Require Import Reals Lra Lia List Arith ZArith Bool.
From Stdlib Require Import QArith Qround Qreals Sorted Permutation.
From Stdlib Require PrimFloat Uint63.
Import ListNotations.

Open Scope R_scope.

(** ** Values *)

(** A [float64] as the program sees it: a real number, or NaN. *)
Inductive npfloat : Type :=
| Num (r : R)
| NaN.

Definition is_num (v : npfloat) : Prop :=
  match v with Num _ => True | NaN => False end.

Definition is_nan (v : npfloat) : bool :=
  match v with Num _ => false | NaN => true end.

(** IEEE comparison: NaN is not below anything and nothing is below NaN. *)
Definition fle (a b : npfloat) : Prop :=
  match a, b with
  | Num x, Num y => x <= y
  | _, _ => False
  end.

Definition fadd (a b : npfloat) : npfloat :=
  match a, b with
  | Num x, Num y => Num (x + y)
  | _, _ => NaN
  end.

(** Division by a real.  The only division by zero this program performs
    has a zero numerator ([np_mean] of an empty list, [corrcoef] of a
    constant column, see [dot_zero_of_norm_zero]), whose IEEE result is
    NaN. *)
Definition fdiv (a : npfloat) (b : R) : npfloat :=
  match a with
  | Num x => if Req_dec_T b 0 then NaN else Num (x / b)
  | NaN => NaN
  end.

(** [np.clip(v, lo, hi)]: NaN passes through. *)
Definition fclip (lo hi : R) (v : npfloat) : npfloat :=
  match v with
  | Num x => Num (Rmax lo (Rmin hi x))
  | NaN => NaN
  end.

(** ** Exceptions *)

Inductive exn : Type :=
| ValueError
| IndexError
| InvalidReference.

(** A row of the dataset: one paired observation (x, y). *)
Definition row : Type := (R * R)%type.

(** An array of shape (N, 2). *)
Definition ndarray : Type := list row.

(** ** NumPy: pure array functions *)

(** [a.T]: the two columns as the two rows of a (2, N) matrix. *)
Definition transpose (a : ndarray) : list (list R) :=
  [map fst a; map snd a].

Definition Rsum (l : list R) : R := fold_right Rplus 0 l.

Definition average (v : list R) : R := Rsum v / INR (length v).

Definition center (v : list R) : list R :=
  map (fun x => x - average v) v.

Definition dot (u v : list R) : R :=
  Rsum (map (fun p => fst p * snd p) (combine u v)).

(** [np.cov(m)], rows are variables: [ddof = 1], and a non-positive
    number of degrees of freedom is replaced by zero. *)
Definition cov (m : list (list R)) : list (list R) :=
  let X := map center m in
  let N := length (hd [] m) in
  let fact := if (N <=? 1)%nat then 0 else INR N - 1 in
  map (fun u => map (fun v => dot u v * (1 / fact)) X) X.

Definition diag (c : list (list R)) : list R :=
  map (fun i => nth i (nth i c []) 0) (seq 0 (length c)).

(** [np.corrcoef(m)]: the covariance matrix divided by the standard
    deviations, row-wise and then column-wise, and clipped to [-1, 1].
    The operations are NumPy's, evaluated exactly; NumPy rounds each of
    them, so that its value can differ from this one (a constant column
    need not centre to zero there, and NumPy can return a number where
    this is NaN).  Either value is NaN or inside [-1, 1]. *)
Definition corrcoef (m : list (list R)) : list (list npfloat) :=
  let c := cov m in
  let stddev := map sqrt (diag c) in
  map (fun rs =>
         map (fun cs => fclip (-1) 1 (fdiv (fdiv (Num (fst cs)) (snd rs)) (snd cs)))
             (combine (fst rs) stddev))
      (combine c stddev).

(** Entry [i, j] of a matrix of floats. *)
Definition entry (c : list (list npfloat)) (i j : nat) : npfloat :=
  nth j (nth i c []) NaN.

(** ** NumPy: summaries of a list of floats *)

Definition has_nan (a : list npfloat) : bool := existsb is_nan a.

(** The real entries of a list of floats, in order. *)
Fixpoint reals (a : list npfloat) : list R :=
  match a with
  | [] => []
  | Num r :: rest => r :: reals rest
  | NaN :: rest => reals rest
  end.

Definition Rleb (x y : R) : bool := if Rle_dec x y then true else false.
Definition Rltb (x y : R) : bool := if Rlt_dec x y then true else false.

(** [np.mean(a)]: the sum over the count; NaN for an empty list.  The
    sum is exact here and rounded in NumPy. *)
Definition np_mean (a : list npfloat) : npfloat :=
  fdiv (fold_left fadd a (Num 0)) (INR (length a)).

Fixpoint insert_sorted (x : R) (l : list R) : list R :=
  match l with
  | [] => [x]
  | y :: rest => if Rleb x y then x :: l else y :: insert_sorted x rest
  end.

Definition sort (l : list R) : list R := fold_right insert_sorted [] l.

(** [_lerp(a, b, t)] of NumPy's quantile code. *)
Definition lerp (a b : R) (t : Q) : R :=
  let diff_b_a := b - a in
  if Qle_bool (1 # 2) t then b - diff_b_a * (1 - Q2R t)
  else a + diff_b_a * Q2R t.

(** One percentile of a sorted, non-empty list of [n] reals, method
    "linear": the virtual index [(n - 1) * (q / 100)], its floor and the
    next position (both the last position when the virtual index reaches
    it), interpolated. *)
Definition quantile_sorted (s : list R) (q : Q) : R :=
  let n := length s in
  let virtual_index := ((inject_Z (Z.of_nat n) - 1) * (q / 100))%Q in
  if Qle_bool (inject_Z (Z.of_nat n) - 1) virtual_index then
    lerp (last s 0) (last s 0) (virtual_index - (-1))%Q
  else
    let previous := Z.to_nat (Qfloor virtual_index) in
    lerp (nth previous s 0) (nth (S previous) s 0)
         (virtual_index - inject_Z (Qfloor virtual_index))%Q.

(** [np.percentile(a, qs)]: a percentile outside [0, 100] is a
    ValueError, an empty [a] an IndexError; a NaN anywhere in [a] makes
    every result NaN. *)
Definition np_percentile (a : list npfloat) (qs : list Q) : exn + list npfloat :=
  if negb (forallb (fun q => Qle_bool 0 q && Qle_bool q 100) qs) then inl ValueError
  else
    match a with
    | [] => inl IndexError
    | _ :: _ =>
        if has_nan a then inr (map (fun _ => NaN) qs)
        else inr (map (fun q => Num (quantile_sorted (sort (reals a)) q)) qs)
    end.

(** [np.linspace(start, stop, num)]. *)
Definition linspace (start stop : R) (num : nat) : list R :=
  match num with
  | O => []
  | S O => [start]
  | S div =>
      let step := (stop - start) / INR div in
      map (fun i => INR i * step + start) (seq 0 div) ++ [stop]
  end.

Definition list_min (x : R) (l : list R) : R := fold_left Rmin l x.
Definition list_max (x : R) (l : list R) : R := fold_left Rmax l x.

(** Bin [i] of [nb] bins is half-open, except the last one. *)
Definition in_bin (edges : list R) (nb i : nat) (x : R) : bool :=
  Rleb (nth i edges 0) x &&
  (if (S i =? nb)%nat then Rleb x (nth (S i) edges 0)
   else Rltb x (nth (S i) edges 0)).

Definition bin_counts (edges : list R) (nb : nat) (a : list R) : list nat :=
  map (fun i => length (filter (in_bin edges nb i) a)) (seq 0 nb).

Definition nat_sum (l : list nat) : nat := fold_right Nat.add O l.


Definition diff (e : list R) : list R :=
  map (fun i => nth (S i) e 0 - nth i e 0) (seq 0 (pred (length e))).

(** [np.histogram(a, bins=bins, density=True)]: the pair of the
    densities and the bin edges.  The edges run from the minimum to the
    maximum of [a] (widened by a half on each side when they coincide,
    and 0 to 1 for an empty [a]); a NaN in [a] or [bins < 1] is a
    ValueError.  The edges are exact here; those NumPy computes are
    rounded and can repeat, see [F64.bin_edges]. *)
Definition np_histogram (a : list npfloat) (bins : nat)
  : exn + (list npfloat * list R) :=
  if (bins <? 1)%nat then inl ValueError
  else if has_nan a then inl ValueError
  else
    let xs := reals a in
    let (first_edge, last_edge) :=
      match xs with
      | [] => (0, 1)
      | x :: rest => (list_min x rest, list_max x rest)
      end in
    let (first_edge, last_edge) :=
      if Req_dec_T first_edge last_edge
      then (first_edge - 5 / 10, last_edge + 5 / 10)
      else (first_edge, last_edge) in
    let bin_edges := linspace first_edge last_edge (bins + 1) in
    let n := bin_counts bin_edges bins xs in
    let db := diff bin_edges in
    let total := INR (nat_sum n) in
    inr (map (fun p => fdiv (fdiv (Num (INR (fst p))) (snd p)) total) (combine n db),
         bin_edges).

(** ** The random source and the store *)

(** The NumPy generator behind [np.random]: a state, from which one
    standard normal deviate or one bounded integer is drawn at a time. *)
Class RandomSource (G : Type) : Type := {
  standard_normal : G -> R * G;
  bounded_draw : nat -> G -> nat * G;
  bounded_draw_range :
    forall (high : nat) (g : G),
      (0 < high)%nat -> (fst (bounded_draw high g) < high)%nat
}.

(** The singular value decomposition used by
    [np.random.multivariate_normal], at dimension two:
    [svd m = (u, s, v)]. *)
Definition vec2 : Type := (R * R)%type.
Definition mat2 : Type := (vec2 * vec2)%type.

Class LinAlg : Type := {
  svd : mat2 -> mat2 * vec2 * mat2
}.

Section Program.

Context {G : Type} {RS : RandomSource G} {LA : LinAlg}.

(** References to arrays are positions in the store. *)
Definition addr : Type := nat.

Record world : Type := World {
  rng : G;
  heap : list ndarray
}.

Definition M (A : Type) : Type := world -> exn + (A * world).

Definition ret {A : Type} (a : A) : M A := fun w => inr (a, w).

Definition bind {A B : Type} (m : M A) (k : A -> M B) : M B :=
  fun w =>
    match m w with
    | inl e => inl e
    | inr (a, w') => k a w'
    end.

Definition raise {A : Type} (e : exn) : M A := fun _ => inl e.

Notation "x <- m ;; k" := (bind m (fun x => k))
  (at level 61, m at next level, right associativity).

(** Reading the array a reference points to. *)
Definition deref (a : addr) : M ndarray :=
  fun w =>
    match nth_error (heap w) a with
    | Some arr => inr (arr, w)
    | None => inl InvalidReference
    end.

(** A new array object. *)
Definition alloc (arr : ndarray) : M addr :=
  fun w => inr (length (heap w), World (rng w) (heap w ++ [arr])).

Definition get_rng : M G := fun w => inr (rng w, w).

Definition put_rng (g : G) : M unit :=
  fun w => inr (tt, World g (heap w)).

(** ** NumPy: functions on the generator and the store *)

(** [size] successive bounded draws. *)
Fixpoint draw_indices (high size : nat) (g : G) : list nat * G :=
  match size with
  | O => ([], g)
  | S k =>
      let (i, g1) := bounded_draw high g in
      let (rest, g2) := draw_indices high k g1 in
      (i :: rest, g2)
  end.

(** [np.random.randint(high, size=size)]: an empty request is answered
    before the bounds are looked at; [high <= 0] is a ValueError. *)
Definition randint (high size : nat) : M (list nat) :=
  if (size =? 0)%nat then ret []
  else if (high =? 0)%nat then raise ValueError
  else
    g <- get_rng ;;
    let (idx, g') := draw_indices high size g in
    _ <- put_rng g' ;;
    ret idx.

(** [a[idx]] for an integer index array: the selected rows, in the order
    of [idx], as a new array; an index past the end is an IndexError. *)
Fixpoint take_rows (a : ndarray) (idx : list nat) : exn + ndarray :=
  match idx with
  | [] => inr []
  | i :: rest =>
      match nth_error a i with
      | None => inl IndexError
      | Some r =>
          match take_rows a rest with
          | inl e => inl e
          | inr rs => inr (r :: rs)
          end
      end
  end.

Definition getitem (a : ndarray) (idx : list nat) : M addr :=
  match take_rows a idx with
  | inl e => raise e
  | inr rs => alloc rs
  end.

(** [np.random.multivariate_normal(mean, cov, size)] at dimension two:
    [size] pairs of standard normal deviates, each multiplied by
    [sqrt(s)[:, None] * v] and shifted by [mean]. *)
Definition scale_rows (s : vec2) (v : mat2) : mat2 :=
  let '((v00, v01), (v10, v11)) := v in
  ((sqrt (fst s) * v00, sqrt (fst s) * v01),
   (sqrt (snd s) * v10, sqrt (snd s) * v11)).

Definition vec_mat (z : vec2) (a : mat2) : vec2 :=
  let '((a00, a01), (a10, a11)) := a in
  (fst z * a00 + snd z * a10, fst z * a01 + snd z * a11).

Fixpoint draw_normal_rows (size : nat) (g : G) : list vec2 * G :=
  match size with
  | O => ([], g)
  | S k =>
      let (z0, g1) := standard_normal g in
      let (z1, g2) := standard_normal g1 in
      let (rest, g3) := draw_normal_rows k g2 in
      ((z0, z1) :: rest, g3)
  end.

(** [dot(x, a) + mean], row by row. *)
Definition affine_rows (mean : vec2) (a : mat2) (x : list vec2) : ndarray :=
  map (fun z => let y := vec_mat z a in (fst y + fst mean, snd y + snd mean)) x.

Definition multivariate_normal (mean : vec2) (cv : mat2) (size : nat) : M addr :=
  g <- get_rng ;;
  let (x, g') := draw_normal_rows size g in
  _ <- put_rng g' ;;
  let '(_, s, v) := svd cv in
  alloc (affine_rows mean (scale_rows s v) x).

(** ** The program *)

Definition generate_data (n : nat) (correlation : R) : M addr :=
  let mean := (0, 0) in
  let cv := ((1, correlation), (correlation, 1)) in
  multivariate_normal mean cv n.

Definition resample (data : addr) : M addr :=
  a <- deref data ;;
  idx <- randint (length a) (length a) ;;
  getitem a idx.

Fixpoint bootstrap_loop (data : addr) (n : nat) (correlations : list npfloat)
  : M (list npfloat) :=
  match n with
  | O => ret correlations
  | S k =>
      sample <- resample data ;;
      s <- deref sample ;;
      bootstrap_loop data k (correlations ++ [entry (corrcoef (transpose s)) 0 1])
  end.

Definition bootstrap_correlation (data : addr) (n_iterations : nat)
  : M (list npfloat) :=
  bootstrap_loop data n_iterations [].

Definition lift {A : Type} (r : exn + A) : M A :=
  match r with
  | inl e => raise e
  | inr a => ret a
  end.

(** What the script computes for display, in the order of the script:
    the histogram data, the bootstrap mean and the percentile interval. *)
Record summary : Type := Summary {
  hist_data : list npfloat * list R;
  bootstrap_mean : npfloat;
  confidence_interval : list npfloat
}.

Definition summarize (bootstrap_correlations : list npfloat) : exn + summary :=
  match np_histogram bootstrap_correlations 30 with
  | inl e => inl e
  | inr h =>
      let m := np_mean bootstrap_correlations in
      match np_percentile bootstrap_correlations [5 # 2; 195 # 2]%Q with
      | inl e => inl e
      | inr ci => inr (Summary h m ci)
      end
  end.

Definition main (n_samples : nat) (correlation : R) (n_bootstrap : nat)
  : M (list npfloat * summary) :=
  data <- generate_data n_samples correlation ;;
  bootstrap_correlations <- bootstrap_correlation data n_bootstrap ;;
  s <- lift (summarize bootstrap_correlations) ;;
  ret (bootstrap_correlations, s).

(** What a computation produced, the final store put aside. *)
Definition outcome {A : Type} (r : exn + (A * world)) : exn + A :=
  match r with
  | inl e => inl e
  | inr (a, _) => inr a
  end.

(** ** The rounds of the bootstrap, as a function of the random source

    The index vectors that [n] successive calls of
    [np.random.randint(N, size=N)] draw, and the state they leave. *)
Fixpoint index_rounds (N n : nat) (g : G) : list (list nat) * G :=
  match n with
  | O => ([], g)
  | S k =>
      let (idx, g1) := draw_indices N N g in
      let (rest, g2) := index_rounds N k g1 in
      (idx :: rest, g2)
  end.

End Program.

(** The rows of [d] at the positions [idx]. *)
Definition gather (d : ndarray) (idx : list nat) : ndarray :=
  map (fun i => nth i d (0, 0)) idx.

(** The value a round of [bootstrap_correlation] appends when it has
    drawn the indices [idx]. *)
Definition round_value (d : ndarray) (idx : list nat) : npfloat :=
  entry (corrcoef (transpose (gather d idx))) 0 1.

(** ** The two policies for undefined results

    Either an undefined result is a sentinel that the aggregate
    statistics leave out: the mean and the percentile interval are those
    of the defined results alone; or the round is drawn again, and no
    undefined result is in the output. *)
Definition undefined_excluded (out : list npfloat) : Prop :=
  np_mean out = np_mean (map Num (reals out)) /\
  np_percentile out [5 # 2; 195 # 2]%Q =
    np_percentile (map Num (reals out)) [5 # 2; 195 # 2]%Q.

Definition undefined_redrawn (out : list npfloat) : Prop :=
  has_nan out = false.

Definition degenerate_policy (out : list npfloat) : Prop :=
  undefined_excluded out \/ undefined_redrawn out.

(** ** The Pearson correlation coefficient, as in the textbook

    For paired observations (x_i, y_i) with means mx and my:
    the sum of (x_i - mx)(y_i - my) over the square root of the product
    of the sums of (x_i - mx)^2 and (y_i - my)^2; undefined (0/0) when
    either sum of squares is zero. *)
Definition sum_sq_x (s : ndarray) : R :=
  let xs := map fst s in dot (center xs) (center xs).

Definition sum_sq_y (s : ndarray) : R :=
  let ys := map snd s in dot (center ys) (center ys).

Definition sum_xy (s : ndarray) : R :=
  dot (center (map fst s)) (center (map snd s)).

(** Zero variance in the x-values or in the y-values. *)
Definition degenerate (s : ndarray) : Prop :=
  sum_sq_x s = 0 \/ sum_sq_y s = 0.

Definition pearson (s : ndarray) : npfloat :=
  if Req_dec_T (sum_sq_x s) 0 then NaN
  else if Req_dec_T (sum_sq_y s) 0 then NaN
  else Num (sum_xy s / sqrt (sum_sq_x s * sum_sq_y s)).

(** ** The loop, with the statistic NumPy computes taken as given

    What [np.corrcoef] returns for a sample is the result of a binary64
    computation inside NumPy.  [bootstrap_loop_with statistic] is the
    loop of [bootstrap_correlation] with [statistic s] standing for
    [np.corrcoef(s.T)[0, 1]], whatever arithmetic evaluates it;
    [bootstrap_loop] is its instance at exact arithmetic. *)
Section Statistic.

Context {G : Type} {RS : RandomSource G}.

Variable statistic : ndarray -> npfloat.

Fixpoint bootstrap_loop_with (data : addr) (n : nat) (correlations : list npfloat)
  : M (list npfloat) :=
  match n with
  | O => ret correlations
  | S k =>
      bind (resample data) (fun sample =>
      bind (deref sample) (fun s =>
      bootstrap_loop_with data k (correlations ++ [statistic s])))
  end.

Definition bootstrap_correlation_with (data : addr) (n_iterations : nat)
  : M (list npfloat) :=
  bootstrap_loop_with data n_iterations [].

End Statistic.

(** ** The draws of the random source, one by one

    The state of the random source after [k] bounded draws below [high],
    the value the next draw returns, and the sample of round [r] (rounds
    and positions counted from 0): its row at position [j] is the row of
    the dataset at the index that draw number [r * |d| + j] returns. *)
Section Draws.

Context {G : Type} {RS : RandomSource G}.

Fixpoint after_draws (high k : nat) (g : G) : G :=
  match k with
  | O => g
  | S k' => after_draws high k' (snd (bounded_draw high g))
  end.

Definition drawn (high k : nat) (g : G) : nat :=
  fst (bounded_draw high (after_draws high k g)).

Definition round_sample (d : ndarray) (r : nat) (g : G) : ndarray :=
  map (fun j => nth (drawn (length d) (r * length d + j) g) d (0, 0))
      (seq 0 (length d)).

End Draws.

(** ** The histogram edges in binary64

    [np.linspace] and the edges and densities of [np.histogram], with
    the operations of binary64 in the order NumPy applies them. *)
Module F64.

Import PrimFloat.

Local Open Scope float_scope.

Definition of_nat (n : nat) : float :=
  of_uint63 (Uint63.of_Z (Z.of_nat n)).

(** [np.linspace(start, stop, num)]: [arange(0, num) * step + start]
    with [step = (stop - start) / (num - 1)], or
    [arange(0, num) / (num - 1) * (stop - start) + start] when the step
    underflows to zero, and the last entry set to [stop]. *)
Definition linspace (start stop : float) (num : nat) : list float :=
  match num with
  | O => []
  | S O => [start]
  | S div =>
      let delta := stop - start in
      let step := delta / of_nat div in
      (if step =? 0
       then map (fun i => of_nat i / of_nat div * delta + start) (seq 0 div)
       else map (fun i => of_nat i * step + start) (seq 0 div))
      ++ [stop]
  end.

Definition minimum (x : float) (l : list float) : float :=
  fold_left (fun m y => if y <? m then y else m) l x.

Definition maximum (x : float) (l : list float) : float :=
  fold_left (fun m y => if m <? y then y else m) l x.

(** The bin edges of [np.histogram(a, bins=bins)] for values without
    NaN. *)
Definition bin_edges (a : list float) (bins : nat) : list float :=
  let (first_edge, last_edge) :=
    match a with
    | [] => (0, 1)
    | x :: rest => (minimum x rest, maximum x rest)
    end in
  let (first_edge, last_edge) :=
    if first_edge =? last_edge
    then (first_edge - 0.5, last_edge + 0.5)
    else (first_edge, last_edge) in
  linspace first_edge last_edge (bins + 1).

(** [np.diff(e)]. *)
Definition diff (e : list float) : list float :=
  map (fun i => nth (S i) e 0 - nth i e 0) (seq 0 (pred (length e))).






End F64.

(** ** A replayed random source

    A random source that replays a recorded tape of raw draws; it makes
    the program executable on concrete inputs. *)
Definition tape : Type := list Z.

Definition tape_normal (t : tape) : R * tape :=
  match t with
  | [] => (0, [])
  | z :: rest => (IZR z, rest)
  end.

Definition tape_bounded (high : nat) (t : tape) : nat * tape :=
  match t with
  | [] => (O, [])
  | z :: rest => ((Z.to_nat z mod high)%nat, rest)
  end.

(** A decomposition that is right for the identity matrix only. *)
Definition identity_svd : LinAlg := {|
  svd := fun _ => (((1, 0), (0, 1)), (1, 1), ((1, 0), (0, 1)))
|}.

(** A dataset of two observations, alone in the store, and a tape. *)
Definition two_points : ndarray := [(0, 0); (1, 1)].

Definition two_points_world (t : tape) : @world tape :=
  World t [two_points].

(** ** The rest of the script *)


Lemma tape_bounded_range (high : nat) (t : tape) :
  (0 < high)%nat -> (fst (tape_bounded high t) < high)%nat.
Proof.
  intros Hh. destruct t as [|z rest]; simpl; [exact Hh|].
  apply Nat.mod_upper_bound. lia.
Qed.

#[export] Instance tape_source : RandomSource tape := {
  standard_normal := tape_normal;
  bounded_draw := tape_bounded;
  bounded_draw_range := tape_bounded_range
}.


(** * Properties *)

(** ** Lists of reals *)

Lemma Rsum_app (l1 l2 : list R) : Rsum (l1 ++ l2) = Rsum l1 + Rsum l2.
Proof.
  induction l1 as [|x l1 IH]; simpl; [lra | rewrite IH; lra].
Qed.

(** ** Running the program *)

Section Runs.

Context {G : Type} {RS : RandomSource G} {LA : LinAlg}.

Lemma draw_indices_length (high size : nat) (g : G) :
  length (fst (draw_indices high size g)) = size.
Proof.
  revert g. induction size as [|k IH]; intros g; simpl; [reflexivity|].
  destruct (bounded_draw high g) as [i g1].
  specialize (IH g1). destruct (draw_indices high k g1) as [rest g2].
  simpl in *. now rewrite IH.
Qed.

Lemma draw_indices_range (high size : nat) (g : G) :
  (0 < high)%nat ->
  Forall (fun i => (i < high)%nat) (fst (draw_indices high size g)).
Proof.
  intros Hh. revert g. induction size as [|k IH]; intros g; simpl.
  - constructor.
  - pose proof (bounded_draw_range high g Hh) as Hi.
    destruct (bounded_draw high g) as [i g1].
    specialize (IH g1). destruct (draw_indices high k g1) as [rest g2].
    simpl in *. constructor; assumption.
Qed.

Lemma take_rows_gather (a : ndarray) (idx : list nat) :
  Forall (fun i => (i < length a)%nat) idx ->
  take_rows a idx = inr (gather a idx).
Proof.
  induction 1 as [|i rest Hi _ IH]; simpl; [reflexivity|].
  destruct (nth_error a i) as [r|] eqn:E.
  - rewrite IH. f_equal. f_equal.
    symmetry. apply nth_error_nth with (d := (0, 0)) in E. exact E.
  - apply nth_error_None in E. lia.
Qed.

Lemma randint_run (N : nat) (w : world) :
  randint N N w =
  inr (fst (draw_indices N N (rng w)),
       World (snd (draw_indices N N (rng w))) (heap w)).
Proof.
  unfold randint. destruct N as [|k].
  - simpl. unfold ret. destruct w; reflexivity.
  - cbn [Nat.eqb]. unfold bind, get_rng, put_rng, ret.
    destruct (draw_indices (S k) (S k) (rng w)) as [idx g']. reflexivity.
Qed.

(** One call of [resample]: the indices drawn, the rows gathered, and
    the sample stored as a new array after everything else. *)
Lemma resample_run (data : addr) (d : ndarray) (w : world) :
  nth_error (heap w) data = Some d ->
  resample data w =
  inr (length (heap w),
       World (snd (draw_indices (length d) (length d) (rng w)))
             (heap w ++ [gather d (fst (draw_indices (length d) (length d) (rng w)))])).
Proof.
  intros Hd. unfold resample, bind, deref. rewrite Hd.
  rewrite randint_run. unfold getitem.
  rewrite take_rows_gather; [reflexivity|].
  destruct d as [|r d'].
  - simpl. constructor.
  - apply draw_indices_range. simpl. lia.
Qed.

Lemma nth_error_heap_app (h : list ndarray) (extra : list ndarray) (a : addr) (d : ndarray) :
  nth_error h a = Some d -> nth_error (h ++ extra) a = Some d.
Proof.
  intros H. rewrite nth_error_app1; [exact H|].
  apply nth_error_Some. congruence.
Qed.

Lemma bootstrap_loop_run (data : addr) (d : ndarray) (n : nat) :
  forall (acc : list npfloat) (w : world),
    nth_error (heap w) data = Some d ->
    bootstrap_loop data n acc w =
    inr (acc ++ map (round_value d) (fst (index_rounds (length d) n (rng w))),
         World (snd (index_rounds (length d) n (rng w)))
               (heap w ++ map (gather d) (fst (index_rounds (length d) n (rng w))))).
Proof.
  induction n as [|k IH]; intros acc w Hd.
  - simpl. unfold ret. rewrite !app_nil_r. destruct w; reflexivity.
  - cbn [bootstrap_loop index_rounds]. unfold bind at 1.
    rewrite (resample_run data d w Hd).
    destruct (draw_indices (length d) (length d) (rng w)) as [idx g1] eqn:E1.
    cbn [fst snd].
    unfold bind, deref. cbn [heap].
    rewrite nth_error_app2 by lia. rewrite Nat.sub_diag. cbn [nth_error].
    rewrite IH by (cbn [heap]; apply nth_error_heap_app; exact Hd).
    cbn [rng heap].
    destruct (index_rounds (length d) k g1) as [rest g2]. cbn [fst snd map].
    rewrite <- !app_assoc. reflexivity.
Qed.

Lemma index_rounds_length (N n : nat) (g : G) :
  length (fst (index_rounds N n g)) = n.
Proof.
  revert g. induction n as [|k IH]; intros g; simpl; [reflexivity|].
  destruct (draw_indices N N g) as [idx g1].
  specialize (IH g1). destruct (index_rounds N k g1) as [rest g2].
  simpl in *. now rewrite IH.
Qed.

End Runs.

(** ** The correlation coefficient *)

Lemma dot_self_nonneg (u : list R) : 0 <= dot u u.
Proof.
  unfold dot. induction u as [|a u IH]; simpl; [lra|]. nra.
Qed.

Lemma dot_cons (a b : R) (u v : list R) :
  dot (a :: u) (b :: v) = a * b + dot u v.
Proof. reflexivity. Qed.

(** Cauchy-Schwarz, for lists of any two lengths ([dot] stops at the
    shorter one). *)
Lemma cauchy_schwarz (u v : list R) :
  dot u v * dot u v <= dot u u * dot v v.
Proof.
  revert v. induction u as [|a u IH]; intros v.
  - unfold dot at 1 2 3. simpl. lra.
  - destruct v as [|b v].
    + unfold dot at 1 2 4. simpl. lra.
    + rewrite !dot_cons. specialize (IH v).
      pose proof (dot_self_nonneg u) as HA.
      pose proof (dot_self_nonneg v) as HB.
      set (A := dot u u) in *. set (B := dot v v) in *. set (C := dot u v) in *.
      assert (Hk : 2 * (a * b * C) <= A * (b * b) + (a * a) * B).
      { destruct (Req_dec_T A 0) as [HA0|HA0].
        - assert (C = 0) by nra. subst C. rewrite H, HA0. nra.
        - assert (0 < A) by lra.
          apply Rmult_le_reg_l with A; [assumption|].
          pose proof (Rle_0_sqr (A * b - a * C)) as Hs. unfold Rsqr in Hs.
          nra. }
      nra.
Qed.

(** A column without variance has no covariance with anything: the
    quotient [corrcoef] forms is then 0/0. *)
Lemma dot_zero_of_norm_zero (u v : list R) :
  dot u u = 0 -> dot u v = 0.
Proof.
  intros H. pose proof (cauchy_schwarz u v) as Hcs. rewrite H in Hcs. nra.
Qed.

Lemma center_length (v : list R) : length (center v) = length v.
Proof. unfold center. apply length_map. Qed.

Lemma dot_short (u : list R) :
  (length u <= 1)%nat -> dot (center u) (center u) = 0.
Proof.
  destruct u as [|x [|y u]]; simpl; intros H; try lia.
  - reflexivity.
  - unfold center, average, dot. simpl. field.
Qed.

Lemma pearson_bounds (s : ndarray) :
  sum_sq_x s <> 0 -> sum_sq_y s <> 0 ->
  -1 <= sum_xy s / sqrt (sum_sq_x s * sum_sq_y s) <= 1.
Proof.
  intros Hx Hy.
  pose proof (dot_self_nonneg (center (map fst s))) as Hx0.
  pose proof (dot_self_nonneg (center (map snd s))) as Hy0.
  pose proof (cauchy_schwarz (center (map fst s)) (center (map snd s))) as Hcs.
  unfold sum_sq_x, sum_sq_y, sum_xy in *.
  set (A := dot (center (map fst s)) (center (map fst s))) in *.
  set (B := dot (center (map snd s)) (center (map snd s))) in *.
  set (C := dot (center (map fst s)) (center (map snd s))) in *.
  assert (HAB : 0 < A * B) by nra.
  pose proof (sqrt_lt_R0 _ HAB) as HD.
  pose proof (sqrt_sqrt (A * B) (Rlt_le _ _ HAB)) as HDD.
  set (D := sqrt (A * B)) in *.
  assert (HC : - D <= C <= D) by nra.
  split.
  - apply Rmult_le_reg_r with D; [assumption|].
    unfold Rdiv. rewrite Rmult_assoc, Rinv_l by lra. lra.
  - apply Rmult_le_reg_r with D; [assumption|].
    unfold Rdiv. rewrite Rmult_assoc, Rinv_l by lra. lra.
Qed.

Lemma fclip_id (x : R) : -1 <= x <= 1 -> fclip (-1) 1 (Num x) = Num x.
Proof.
  intros [H1 H2]. unfold fclip. f_equal.
  rewrite Rmin_right by lra. rewrite Rmax_right by lra. reflexivity.
Qed.

(** What [np.corrcoef(sample.T)[0, 1]] computes is the textbook
    coefficient: the degrees of freedom cancel and the final clip changes
    nothing. *)
Lemma corrcoef_pearson (s : ndarray) :
  entry (corrcoef (transpose s)) 0 1 = pearson s.
Proof.
  unfold entry, corrcoef, transpose, cov, diag. cbn [map hd length seq combine nth fst snd].
  rewrite length_map. unfold pearson, sum_sq_x, sum_sq_y, sum_xy.
  set (cx := center (map fst s)). set (cy := center (map snd s)).
  change (list (R * R)) in s.
  destruct (length s <=? 1)%nat eqn:EN.
  - apply Nat.leb_le in EN.
    assert (Hz : dot cx cx = 0).
    { apply dot_short. rewrite length_map. exact EN. }
    rewrite Hz. rewrite Rmult_0_l, sqrt_0. unfold fdiv.
    destruct (Req_dec_T 0 0) as [_|Hn]; [|lra].
    destruct (Req_dec_T 0 0) as [_|Hn]; [|lra]. reflexivity.
  - apply Nat.leb_gt in EN.
    assert (Hf : 0 < INR (length s) - 1).
    { apply lt_INR in EN. simpl in EN. lra. }
    set (f := INR (length s) - 1) in *.
    pose proof (dot_self_nonneg cx) as Hx0.
    pose proof (dot_self_nonneg cy) as Hy0.
    assert (Hif : 0 < 1 / f) by (apply Rdiv_lt_0_compat; lra).
    unfold fdiv at 2.
    destruct (Req_dec_T (sqrt (dot cx cx * (1 / f))) 0) as [E0|E0];
      destruct (Req_dec_T (dot cx cx) 0) as [Ex|Ex].
    + reflexivity.
    + exfalso. apply sqrt_eq_0 in E0; nra.
    + exfalso. apply E0. rewrite Ex, Rmult_0_l. apply sqrt_0.
    + unfold fdiv.
      destruct (Req_dec_T (sqrt (dot cy cy * (1 / f))) 0) as [E1|E1];
        destruct (Req_dec_T (dot cy cy) 0) as [Ey|Ey].
      * reflexivity.
      * exfalso. apply sqrt_eq_0 in E1; nra.
      * exfalso. apply E1. rewrite Ey, Rmult_0_l. apply sqrt_0.
      * assert (Hq : dot cx cy * (1 / f) / sqrt (dot cx cx * (1 / f))
                     / sqrt (dot cy cy * (1 / f))
                     = dot cx cy / sqrt (dot cx cx * dot cy cy)).
        { set (a := sqrt (dot cx cx * (1 / f))) in *.
          set (b := sqrt (dot cy cy * (1 / f))) in *.
          assert (Ha : a * a = dot cx cx * (1 / f)) by (apply sqrt_sqrt; nra).
          assert (Hb : b * b = dot cy cy * (1 / f)) by (apply sqrt_sqrt; nra).
          assert (Ha0 : 0 <= a) by apply sqrt_pos.
          assert (Hb0 : 0 <= b) by apply sqrt_pos.
          assert (HD : sqrt (dot cx cx * dot cy cy) = a * b * f).
          { apply sqrt_lem_1.
            { apply Rmult_le_pos; assumption. }
            { apply Rmult_le_pos; [apply Rmult_le_pos; assumption | lra]. }
            replace (a * b * f * (a * b * f)) with ((a * a) * (b * b) * (f * f)) by ring.
            rewrite Ha, Hb. field. lra. }
          rewrite HD. field. repeat split; lra. }
        rewrite Hq. apply fclip_id.
        apply (pearson_bounds s); assumption.
Qed.

Lemma pearson_nan_iff (s : ndarray) : pearson s = NaN <-> degenerate s.
Proof.
  unfold pearson, degenerate.
  destruct (Req_dec_T (sum_sq_x s) 0) as [Ex|Ex].
  - split; auto.
  - destruct (Req_dec_T (sum_sq_y s) 0) as [Ey|Ey].
    + split; auto.
    + split; [discriminate|]. intros [H|H]; contradiction.
Qed.

(** ** The bootstrap engine *)

Section Bootstrap.

Context {G : Type} {RS : RandomSource G}.

Lemma bootstrap_correlation_run (data : addr) (d : ndarray) (B : nat) (w : world) :
  nth_error (heap w) data = Some d ->
  bootstrap_correlation data B w =
  inr (map (fun idx => pearson (gather d idx))
           (fst (index_rounds (length d) B (rng w))),
       World (snd (index_rounds (length d) B (rng w)))
             (heap w ++ map (gather d) (fst (index_rounds (length d) B (rng w))))).
Proof.
  intros Hd. unfold bootstrap_correlation.
  rewrite (bootstrap_loop_run data d B [] w Hd). cbn [app].
  rewrite (map_ext (round_value d) (fun idx => pearson (gather d idx))).
  - reflexivity.
  - intros idx. unfold round_value. apply corrcoef_pearson.
Qed.

(** C2. The sequence [bootstrap_correlation] returns has exactly as many
    elements as iterations were asked for. *)
Theorem bootstrap_correlation_length
  (data : addr) (d : ndarray) (B : nat) (w : world) :
  nth_error (heap w) data = Some d ->
  (2 <= length d)%nat ->
  (0 < B)%nat ->
  exists (out : list npfloat) (w' : world),
    bootstrap_correlation data B w = inr (out, w') /\ length out = B.
Proof.
  intros Hd _ _. eexists. eexists.
  split; [apply bootstrap_correlation_run; exact Hd|].
  rewrite length_map. apply index_rounds_length.
Qed.

(** C5. When none of the B samples drawn has zero variance in its
    x-values or its y-values, every element of the output is a real
    number in [-1, 1]. *)
Theorem bootstrap_correlation_range
  (data : addr) (d : ndarray) (B : nat) (w : world) :
  nth_error (heap w) data = Some d ->
  (2 <= length d)%nat ->
  (1 <= B)%nat ->
  Forall (fun idx => ~ degenerate (gather d idx))
         (fst (index_rounds (length d) B (rng w))) ->
  exists (out : list npfloat) (w' : world),
    bootstrap_correlation data B w = inr (out, w') /\
    length out = B /\
    Forall (fun v => exists r : R, v = Num r /\ -1 <= r <= 1) out.
Proof.
  intros Hd _ _ Hnd. eexists. eexists.
  split; [apply bootstrap_correlation_run; exact Hd|].
  split; [rewrite length_map; apply index_rounds_length|].
  apply Forall_map. eapply Forall_impl; [|exact Hnd].
  intros idx Hi. cbv beta in Hi. unfold pearson, degenerate in *.
  destruct (Req_dec_T (sum_sq_x (gather d idx)) 0) as [Ex|Ex]; [tauto|].
  destruct (Req_dec_T (sum_sq_y (gather d idx)) 0) as [Ey|Ey]; [tauto|].
  eexists. split; [reflexivity|]. apply pearson_bounds; assumption.
Qed.

Lemma gather_in (d : ndarray) (idx : list nat) :
  Forall (fun i => (i < length d)%nat) idx ->
  Forall (fun r => In r d) (gather d idx).
Proof.
  intros H. unfold gather. apply Forall_map.
  eapply Forall_impl; [|exact H].
  intros i Hi. apply nth_In. exact Hi.
Qed.

(** C10. Every observation of the sample [resample] returns is a row of
    the dataset, the sample is a new array, and every array that existed
    before the call, the dataset among them, is what it was; the same
    holds for the dataset after a whole run of
    [bootstrap_correlation]. *)
Theorem resample_selects_rows (data : addr) (d : ndarray) (w : world) :
  nth_error (heap w) data = Some d ->
  d <> [] ->
  (exists (sample : addr) (smp : ndarray) (w' : world),
      resample data w = inr (sample, w') /\
      nth_error (heap w') sample = Some smp /\
      length smp = length d /\
      Forall (fun r => In r d) smp /\
      sample <> data /\
      (forall (a : addr) (arr : ndarray),
          nth_error (heap w) a = Some arr -> nth_error (heap w') a = Some arr)) /\
  (forall B : nat,
      exists (out : list npfloat) (w' : world),
        bootstrap_correlation data B w = inr (out, w') /\
        nth_error (heap w') data = Some d).
Proof.
  intros Hd Hne. split.
  - assert (HN : (0 < length d)%nat) by (destruct d; [congruence | simpl; lia]).
    eexists. eexists. eexists.
    split; [apply resample_run; exact Hd|]. cbn [heap].
    split; [rewrite nth_error_app2 by lia; rewrite Nat.sub_diag; reflexivity|].
    split; [unfold gather; rewrite length_map; apply draw_indices_length|].
    split; [apply gather_in; apply draw_indices_range; exact HN|].
    split.
    + assert (data < length (heap w))%nat by (apply nth_error_Some; congruence). lia.
    + intros a arr Ha. apply nth_error_heap_app. exact Ha.
  - intros B. eexists. eexists.
    split; [apply bootstrap_correlation_run; exact Hd|].
    cbn [heap]. apply nth_error_heap_app. exact Hd.
Qed.

End Bootstrap.

Lemma two_points_not_degenerate : ~ degenerate (gather two_points [0; 1]%nat).
Proof.
  unfold degenerate, sum_sq_x, sum_sq_y, center, average, dot, gather, two_points.
  simpl. intros [H|H]; lra.
Qed.

Lemma bootstrap_correlation_length_witness :
  exists (out : list npfloat) (w' : world),
    bootstrap_correlation 0%nat 3%nat (two_points_world [0; 1; 1; 1; 1; 0]%Z) = inr (out, w') /\
    length out = 3%nat.
Proof.
  apply (bootstrap_correlation_length 0%nat two_points 3%nat (two_points_world [0; 1; 1; 1; 1; 0]%Z)).
  - reflexivity.
  - simpl. lia.
  - lia.
Defined.

Lemma bootstrap_correlation_range_witness :
  exists (out : list npfloat) (w' : world),
    bootstrap_correlation 0%nat 1%nat (two_points_world [0; 1]%Z) = inr (out, w') /\
    length out = 1%nat /\
    Forall (fun v => exists r : R, v = Num r /\ -1 <= r <= 1) out.
Proof.
  apply (bootstrap_correlation_range 0%nat two_points 1%nat (two_points_world [0; 1]%Z)).
  - reflexivity.
  - simpl. lia.
  - lia.
  - simpl. constructor; [exact two_points_not_degenerate | constructor].
Defined.

Lemma resample_selects_rows_witness :
  (exists (sample : addr) (smp : ndarray) (w' : world),
      resample 0%nat (two_points_world [1; 1]%Z) = inr (sample, w') /\
      nth_error (heap w') sample = Some smp /\
      length smp = length two_points /\
      Forall (fun r => In r two_points) smp /\
      sample <> 0%nat /\
      (forall (a : addr) (arr : ndarray),
          nth_error (heap (two_points_world [1; 1]%Z)) a = Some arr ->
          nth_error (heap w') a = Some arr)) /\
  (forall B : nat,
      exists (out : list npfloat) (w' : world),
        bootstrap_correlation 0%nat B (two_points_world [1; 1]%Z) = inr (out, w') /\
        nth_error (heap w') 0%nat = Some two_points).
Proof.
  apply (resample_selects_rows 0%nat two_points (two_points_world [1; 1]%Z)).
  - reflexivity.
  - discriminate.
Defined.

(** ** The data generator *)

Section Generate.

Context {G : Type} {RS : RandomSource G} {LA : LinAlg}.

Lemma draw_normal_rows_length (size : nat) (g : G) :
  length (fst (draw_normal_rows size g)) = size.
Proof.
  revert g. induction size as [|k IH]; intros g; simpl; [reflexivity|].
  destruct (standard_normal g) as [z0 g1].
  destruct (standard_normal g1) as [z1 g2].
  specialize (IH g2). destruct (draw_normal_rows k g2) as [rest g3].
  simpl in *. now rewrite IH.
Qed.

Lemma multivariate_normal_run (mean : vec2) (cv : mat2) (size : nat) (w : world) :
  multivariate_normal mean cv size w =
  inr (length (heap w),
       World (snd (draw_normal_rows size (rng w)))
             (heap w ++ [affine_rows mean
                           (scale_rows (snd (fst (svd cv))) (snd (svd cv)))
                           (fst (draw_normal_rows size (rng w)))])).
Proof.
  unfold multivariate_normal, bind, get_rng.
  destruct (draw_normal_rows size (rng w)) as [x g'].
  unfold put_rng. destruct (svd cv) as [[u s] v]. reflexivity.
Qed.

(** C8. For n >= 2 and a correlation in [-1, 1], [generate_data] returns
    an array of exactly n paired observations. *)
Theorem generate_data_rows (n : nat) (correlation : R) (w : world) :
  (2 <= n)%nat ->
  -1 <= correlation <= 1 ->
  exists (data : addr) (d : list (R * R)) (w' : world),
    generate_data n correlation w = inr (data, w') /\
    nth_error (heap w') data = Some d /\
    length d = n.
Proof.
  intros _ _. eexists. eexists. eexists.
  split; [unfold generate_data; apply multivariate_normal_run|].
  cbn [heap]. split.
  - rewrite nth_error_app2 by lia. rewrite Nat.sub_diag. reflexivity.
  - unfold affine_rows. rewrite length_map. apply draw_normal_rows_length.
Qed.

End Generate.

Lemma generate_data_rows_witness :
  exists (data : addr) (d : list (R * R)) (w' : world),
    @generate_data tape _ identity_svd 2%nat (1 / 2) (@World tape [3; 4; 5; 6]%Z [])
      = inr (data, w') /\
    nth_error (heap w') data = Some d /\
    length d = 2%nat.
Proof.
  apply (@generate_data_rows tape tape_source identity_svd
           2%nat (1 / 2) (@World tape [3; 4; 5; 6]%Z [])).
  - lia.
  - lra.
Defined.

(** ** Determinism *)

Section Determinism.

Context {G : Type} {RS : RandomSource G} {LA : LinAlg}.

(** The dataset [generate_data] builds and the state it leaves the
    random source in, as functions of the state it finds. *)
Lemma generate_data_run (n : nat) (correlation : R) (w : world) :
  generate_data n correlation w =
  inr (length (heap w),
       World (snd (draw_normal_rows n (rng w)))
             (heap w ++
                [affine_rows (0, 0)
                   (scale_rows (snd (fst (svd ((1, correlation), (correlation, 1)))))
                               (snd (svd ((1, correlation), (correlation, 1)))))
                   (fst (draw_normal_rows n (rng w)))])).
Proof. unfold generate_data. apply multivariate_normal_run. Qed.

Lemma nth_error_snoc (h : list ndarray) (d : ndarray) :
  nth_error (h ++ [d]) (length h) = Some d.
Proof.
  rewrite nth_error_app2 by lia. rewrite Nat.sub_diag. reflexivity.
Qed.

Lemma main_outcome (n : nat) (correlation : R) (B : nat) (w : world) :
  outcome (main n correlation B w) =
  let d := affine_rows (0, 0)
             (scale_rows (snd (fst (svd ((1, correlation), (correlation, 1)))))
                         (snd (svd ((1, correlation), (correlation, 1)))))
             (fst (draw_normal_rows n (rng w))) in
  let out := map (fun idx => pearson (gather d idx))
                 (fst (index_rounds (length d) B (snd (draw_normal_rows n (rng w))))) in
  match summarize out with
  | inl e => inl e
  | inr s => inr (out, s)
  end.
Proof.
  unfold main. unfold bind at 1. rewrite generate_data_run.
  unfold bind at 1.
  erewrite bootstrap_correlation_run by (cbn [heap]; apply nth_error_snoc).
  cbn [rng heap]. cbv zeta. unfold bind, lift.
  destruct (summarize _) as [e|s]; reflexivity.
Qed.

(** C6. The outputs are a function of the inputs and of the state of the
    random source alone: from two stores in which the random source is
    in the same state (the same seed), [generate_data] builds the same
    dataset, [bootstrap_correlation] on the same dataset returns the
    same sequence, and the whole pipeline produces the same results,
    whatever else the two stores hold. *)
Theorem pipeline_deterministic
  (n : nat) (correlation : R) (B : nat)
  (data1 data2 : addr) (d : ndarray) (w1 w2 : world) :
  rng w1 = rng w2 ->
  nth_error (heap w1) data1 = Some d ->
  nth_error (heap w2) data2 = Some d ->
  (exists generated : ndarray,
      outcome (bind (generate_data n correlation) deref w1) = inr generated /\
      outcome (bind (generate_data n correlation) deref w2) = inr generated) /\
  (exists out : list npfloat,
      outcome (bootstrap_correlation data1 B w1) = inr out /\
      outcome (bootstrap_correlation data2 B w2) = inr out) /\
  outcome (main n correlation B w1) = outcome (main n correlation B w2).
Proof.
  intros Hg H1 H2. split; [|split].
  - eexists. split.
    + unfold bind. rewrite generate_data_run. unfold deref. cbn [heap].
      rewrite nth_error_snoc. cbn [outcome]. reflexivity.
    + unfold bind. rewrite generate_data_run. unfold deref. cbn [heap].
      rewrite nth_error_snoc. cbn [outcome]. rewrite Hg. reflexivity.
  - eexists. split.
    + rewrite (bootstrap_correlation_run data1 d B w1 H1). cbn [outcome]. reflexivity.
    + rewrite (bootstrap_correlation_run data2 d B w2 H2). cbn [outcome].
      rewrite Hg. reflexivity.
  - rewrite !main_outcome. rewrite Hg. reflexivity.
Qed.

End Determinism.

Lemma pipeline_deterministic_witness :
  let w1 := two_points_world [0; 1; 1; 0]%Z in
  let w2 := @World tape [0; 1; 1; 0]%Z [[(5, 5)]; two_points] in
  (exists generated : ndarray,
      outcome (bind (@generate_data tape _ identity_svd 2%nat 0) deref w1) = inr generated /\
      outcome (bind (@generate_data tape _ identity_svd 2%nat 0) deref w2) = inr generated) /\
  (exists out : list npfloat,
      outcome (bootstrap_correlation 0%nat 2%nat w1) = inr out /\
      outcome (bootstrap_correlation 1%nat 2%nat w2) = inr out) /\
  outcome (@main tape _ identity_svd 2%nat 0 2%nat w1)
    = outcome (@main tape _ identity_svd 2%nat 0 2%nat w2).
Proof.
  apply (@pipeline_deterministic tape tape_source identity_svd 2%nat 0 2%nat
           0%nat 1%nat two_points
           (two_points_world [0; 1; 1; 0]%Z)
           (@World tape [0; 1; 1; 0]%Z [[(5, 5)]; two_points])).
  - reflexivity.
  - reflexivity.
  - reflexivity.
Defined.

(** ** Undefined results *)

Lemma fold_fadd_nan (a : list npfloat) : fold_left fadd a NaN = NaN.
Proof.
  induction a as [|v a IH]; simpl; [reflexivity | exact IH].
Qed.

Lemma fold_fadd_has_nan (a : list npfloat) (acc : npfloat) :
  has_nan a = true -> fold_left fadd a acc = NaN.
Proof.
  revert acc. induction a as [|v a IH]; intros acc H; simpl in *; [discriminate|].
  destruct v as [r|]; simpl in H.
  - apply IH. exact H.
  - destruct acc; simpl; apply fold_fadd_nan.
Qed.

(** A NaN among the values makes their mean NaN ... *)
Lemma np_mean_nan (a : list npfloat) : has_nan a = true -> np_mean a = NaN.
Proof.
  intros H. unfold np_mean. rewrite fold_fadd_has_nan by exact H. reflexivity.
Qed.

(** ... and both bounds of the percentile interval, ... *)
Lemma np_percentile_nan (a : list npfloat) :
  has_nan a = true ->
  np_percentile a [5 # 2; 195 # 2]%Q = inr [NaN; NaN].
Proof.
  intros H. unfold np_percentile.
  change (forallb (fun q : Q => Qle_bool 0 q && Qle_bool q 100) [5 # 2; 195 # 2]%Q)
    with true.
  cbn [negb]. destruct a as [|v a]; [discriminate|].
  rewrite H. reflexivity.
Qed.

(** ... and the histogram is refused. *)
Lemma np_histogram_nan (a : list npfloat) (bins : nat) :
  has_nan a = true -> np_histogram a bins = inl ValueError.
Proof.
  intros H. unfold np_histogram. rewrite H.
  destruct (bins <? 1)%nat; reflexivity.
Qed.

Lemma has_nan_map_exists {A : Type} (f : A -> npfloat) (l : list A) :
  Exists (fun x => f x = NaN) l -> has_nan (map f l) = true.
Proof.
  induction 1 as [x l Hx | x l _ IH]; simpl.
  - rewrite Hx. reflexivity.
  - rewrite IH. apply orb_true_r.
Qed.

Lemma two_points_degenerate : degenerate (gather two_points [0; 0]%nat).
Proof.
  left. unfold sum_sq_x, center, average, dot, gather, two_points.
  simpl. lra.
Qed.

(** C4, as the claim has it, fails.  On the dataset (0, 0), (1, 1) with
    the draws 0, 0 and then 0, 1, the first of two rounds resamples the
    first row twice; the output is NaN followed by a number: the NaN was
    not redrawn, and the mean is NaN, not the mean of the defined
    values. *)
Lemma degenerate_policy_counterexample :
  exists (r : R) (w' : world),
    bootstrap_correlation 0%nat 2%nat (two_points_world [0; 0; 0; 1]%Z)
      = inr ([NaN; Num r], w') /\
    degenerate (gather two_points [0; 0]%nat) /\
    ~ degenerate_policy [NaN; Num r].
Proof.
  pose proof two_points_degenerate as Hdeg.
  pose proof two_points_not_degenerate as Hnd.
  apply pearson_nan_iff in Hdeg.
  destruct (pearson (gather two_points [0; 1]%nat)) as [r|] eqn:Er.
  2:{ exfalso. apply Hnd. apply pearson_nan_iff. exact Er. }
  exists r. eexists. split.
  - rewrite (bootstrap_correlation_run 0%nat two_points 2%nat
               (two_points_world [0; 0; 0; 1]%Z) eq_refl).
    cbn [two_points_world rng heap length two_points index_rounds draw_indices
         bounded_draw tape_source tape_bounded fst snd map].
    change (Z.to_nat 0 mod 2)%nat with 0%nat.
    change (Z.to_nat 1 mod 2)%nat with 1%nat.
    cbn [fst snd map]. rewrite Hdeg, Er. reflexivity.
  - split; [exact two_points_degenerate|].
    intros [[Hmean _] | Hre].
    + unfold np_mean in Hmean. simpl in Hmean.
      destruct (Req_dec_T 1 0) as [E|E]; [lra | discriminate].
    + discriminate.
Qed.

(** ** The percentile interval *)

Lemma Rleb_true (x y : R) : Rleb x y = true <-> x <= y.
Proof.
  unfold Rleb. destruct (Rle_dec x y); split; intros; auto; discriminate.
Qed.

Lemma Rleb_false (x y : R) : Rleb x y = false <-> y < x.
Proof.
  unfold Rleb. destruct (Rle_dec x y); split; intros; auto; try discriminate; lra.
Qed.



Lemma insert_sorted_In (x y : R) (l : list R) :
  In y (insert_sorted x l) -> y = x \/ In y l.
Proof.
  induction l as [|z l IH]; simpl.
  - intros [H|[]]; auto.
  - destruct (Rleb x z); simpl.
    + intros [H|[H|H]]; auto.
    + intros [H|H]; auto. destruct (IH H); auto.
Qed.

Lemma insert_sorted_sorted (x : R) (l : list R) :
  StronglySorted Rle l -> StronglySorted Rle (insert_sorted x l).
Proof.
  induction 1 as [|z l Hl IH Hz]; simpl.
  - constructor; constructor.
  - destruct (Rleb x z) eqn:E.
    + apply Rleb_true in E. constructor.
      * constructor; assumption.
      * constructor; [exact E|].
        eapply Forall_impl; [|exact Hz]. intros y Hy. simpl in Hy. lra.
    + apply Rleb_false in E. constructor; [exact IH|].
      apply Forall_forall. intros y Hy.
      apply insert_sorted_In in Hy. destruct Hy as [->|Hy]; [lra|].
      rewrite Forall_forall in Hz. apply Hz. exact Hy.
Qed.

Lemma insert_sorted_length (x : R) (l : list R) :
  length (insert_sorted x l) = S (length l).
Proof.
  induction l as [|z l IH]; simpl; [reflexivity|].
  destruct (Rleb x z); simpl; [reflexivity | now rewrite IH].
Qed.

Lemma sort_sorted (l : list R) : StronglySorted Rle (sort l).
Proof.
  induction l as [|x l IH]; simpl; [constructor|].
  apply insert_sorted_sorted. exact IH.
Qed.

Lemma sort_length (l : list R) : length (sort l) = length l.
Proof.
  induction l as [|x l IH]; simpl; [reflexivity|].
  rewrite insert_sorted_length. now rewrite IH.
Qed.

Lemma sorted_nth (s : list R) :
  StronglySorted Rle s ->
  forall i j : nat, (i <= j)%nat -> (j < length s)%nat -> nth i s 0 <= nth j s 0.
Proof.
  induction 1 as [|z l Hl IH Hz]; intros i j Hij Hj; simpl in Hj; [lia|].
  destruct i as [|i], j as [|j]; simpl; try lia.
  - lra.
  - rewrite Forall_forall in Hz. apply Hz. apply nth_In. lia.
  - apply IH; lia.
Qed.

Lemma last_nth_pred (s : list R) :
  s <> [] -> last s 0 = nth (length s - 1) s 0.
Proof.
  induction s as [|x s IH]; intros Hne; [congruence|].
  destruct s as [|y s]; [reflexivity|].
  change (last (x :: y :: s) 0) with (last (y :: s) 0).
  rewrite IH by discriminate. simpl. rewrite Nat.sub_0_r. reflexivity.
Qed.

Lemma lerp_linear (a b : R) (t : Q) : lerp a b t = a + (b - a) * Q2R t.
Proof.
  unfold lerp. destruct (Qle_bool (1 # 2) t); ring.
Qed.

Lemma Q2R_inject_Z (z : Z) : Q2R (inject_Z z) = IZR z.
Proof.
  unfold Q2R, inject_Z. simpl. rewrite Rinv_1. ring.
Qed.

Lemma Qfloor_bounds (v : Q) : IZR (Qfloor v) <= Q2R v < IZR (Qfloor v) + 1.
Proof.
  pose proof (Qle_Rle _ _ (Qfloor_le v)) as H1.
  pose proof (Qlt_Rlt _ _ (Qlt_floor v)) as H2.
  rewrite Q2R_inject_Z in H1, H2. rewrite plus_IZR in H2. lra.
Qed.

(** The interpolated value between two neighbours of a sorted list does
    not decrease with the position. *)
Lemma interpolation_monotone (s : list R) (p1 p2 : nat) (g1 g2 : R) :
  StronglySorted Rle s ->
  0 <= g1 < 1 -> 0 <= g2 < 1 ->
  INR p1 + g1 <= INR p2 + g2 ->
  (S p2 < length s)%nat ->
  nth p1 s 0 + (nth (S p1) s 0 - nth p1 s 0) * g1
  <= nth p2 s 0 + (nth (S p2) s 0 - nth p2 s 0) * g2.
Proof.
  intros Hs Hg1 Hg2 Hle Hp2.
  assert (Hp : (p1 <= p2)%nat).
  { assert (INR p1 < INR (S p2)) by (rewrite S_INR; lra).
    apply INR_lt in H. lia. }
  pose proof (sorted_nth s Hs p2 (S p2) ltac:(lia) Hp2) as H2.
  destruct (Nat.eq_dec p1 p2) as [->|Hne].
  - assert (g1 <= g2) by lra. nra.
  - pose proof (sorted_nth s Hs p1 (S p1) ltac:(lia) ltac:(lia)) as H1.
    pose proof (sorted_nth s Hs (S p1) p2 ltac:(lia) ltac:(lia)) as H12.
    nra.
Qed.

Lemma interpolation_le_last (s : list R) (p : nat) (g : R) :
  StronglySorted Rle s ->
  0 <= g < 1 ->
  (S p < length s)%nat ->
  nth p s 0 + (nth (S p) s 0 - nth p s 0) * g <= last s 0.
Proof.
  intros Hs Hg Hp.
  rewrite last_nth_pred by (destruct s; [simpl in Hp; lia | discriminate]).
  pose proof (sorted_nth s Hs p (S p) ltac:(lia) Hp) as H1.
  pose proof (sorted_nth s Hs (S p) (length s - 1) ltac:(lia) ltac:(lia)) as H2.
  nra.
Qed.

Lemma Q2R_virtual_index (n : nat) (q : Q) :
  Q2R ((inject_Z (Z.of_nat n) - 1) * (q / 100)) = (INR n - 1) * (Q2R q / 100).
Proof.
  rewrite Q2R_mult, Q2R_minus, Q2R_inject_Z, <- INR_IZR_INZ.
  rewrite Q2R_div by discriminate.
  change 1%Q with (inject_Z 1). change 100%Q with (inject_Z 100).
  rewrite !Q2R_inject_Z. reflexivity.
Qed.

Lemma Qle_bool_false_R (x y : Q) : Qle_bool x y = false -> Q2R y < Q2R x.
Proof.
  intros E. apply Rnot_le_lt. intros H. apply Rle_Qle in H.
  apply Qle_bool_iff in H. congruence.
Qed.

Lemma Qle_bool_true_R (x y : Q) : Qle_bool x y = true -> Q2R x <= Q2R y.
Proof.
  intros E. apply Qle_Rle. apply Qle_bool_iff. exact E.
Qed.

(** Position and weight of a non-negative virtual index. *)
Lemma floor_position (v : Q) :
  0 <= Q2R v ->
  INR (Z.to_nat (Qfloor v)) = IZR (Qfloor v) /\
  0 <= Q2R (v - inject_Z (Qfloor v)) < 1.
Proof.
  intros Hv. pose proof (Qfloor_bounds v) as [Hlo Hhi].
  assert (Hf : (0 <= Qfloor v)%Z).
  { assert (IZR (-1) < IZR (Qfloor v)) by (simpl; lra).
    apply lt_IZR in H. lia. }
  split.
  - rewrite INR_IZR_INZ. rewrite Z2Nat.id by exact Hf. reflexivity.
  - rewrite Q2R_minus, Q2R_inject_Z. lra.
Qed.

(** On a sorted list the percentile does not decrease with [q]. *)
Lemma quantile_sorted_monotone (s : list R) (q1 q2 : Q) :
  StronglySorted Rle s ->
  s <> [] ->
  (0 <= q1)%Q -> (q1 <= q2)%Q -> (q2 <= 100)%Q ->
  quantile_sorted s q1 <= quantile_sorted s q2.
Proof.
  intros Hs Hne H0 H12 H100.
  unfold quantile_sorted. cbv zeta. rewrite !lerp_linear.
  assert (Hn : 1 <= INR (length s)).
  { destruct s as [|x s']; [congruence|].
    change (length (x :: s')) with (S (length s')). rewrite S_INR.
    pose proof (pos_INR (length s')). lra. }
  apply Qle_Rle in H0, H12, H100.
  change (Q2R 0) with (Q2R (inject_Z 0)) in H0.
  change (Q2R 100) with (Q2R (inject_Z 100)) in H100.
  rewrite Q2R_inject_Z in H0, H100.
  pose proof (Q2R_virtual_index (length s) q1) as E1.
  pose proof (Q2R_virtual_index (length s) q2) as E2.
  assert (Hm : Q2R (inject_Z (Z.of_nat (length s)) - 1) = INR (length s) - 1).
  { rewrite Q2R_minus, Q2R_inject_Z, <- INR_IZR_INZ.
    change 1%Q with (inject_Z 1). rewrite Q2R_inject_Z. reflexivity. }
  set (m := (inject_Z (Z.of_nat (length s)) - 1)%Q) in *.
  set (v1 := (m * (q1 / 100))%Q) in *.
  set (v2 := (m * (q2 / 100))%Q) in *.
  assert (Hv1 : 0 <= Q2R v1) by (rewrite E1; nra).
  assert (Hv12 : Q2R v1 <= Q2R v2) by (rewrite E1, E2; nra).
  destruct (floor_position v1 Hv1) as [Hp1 Hg1].
  destruct (floor_position v2 ltac:(lra)) as [Hp2 Hg2].
  pose proof (Qfloor_bounds v1) as Hf1.
  pose proof (Qfloor_bounds v2) as Hf2.
  assert (Hpos : forall v : Q,
             0 <= Q2R v -> Q2R v < Q2R m ->
             (S (Z.to_nat (Qfloor v)) < length s)%nat).
  { intros v Hv Hlt. destruct (floor_position v Hv) as [Hp _].
    pose proof (Qfloor_bounds v) as Hf.
    apply INR_lt. rewrite S_INR, Hp. lra. }
  destruct (Qle_bool m v2) eqn:B2.
  - replace (last s 0 + (last s 0 - last s 0) * Q2R (v2 - -1))
      with (last s 0) by ring.
    destruct (Qle_bool m v1) eqn:B1.
    + replace (last s 0 + (last s 0 - last s 0) * Q2R (v1 - -1))
        with (last s 0) by ring. lra.
    + apply Qle_bool_false_R in B1.
      apply interpolation_le_last; [exact Hs | exact Hg1 |].
      apply Hpos; assumption.
  - apply Qle_bool_false_R in B2.
    destruct (Qle_bool m v1) eqn:B1.
    + apply Qle_bool_true_R in B1. lra.
    + apply interpolation_monotone; [exact Hs | exact Hg1 | exact Hg2 | |].
      * rewrite Hp1, Hp2.
        rewrite Q2R_minus, Q2R_inject_Z in Hg1, Hg2 |- *.
        rewrite Q2R_minus, Q2R_inject_Z. lra.
      * apply Hpos; [lra | exact B2].
Qed.

Lemma reals_all_num (a : list npfloat) :
  Forall is_num a -> has_nan a = false /\ length (reals a) = length a.
Proof.
  induction 1 as [|v a Hv _ [IH1 IH2]]; simpl; [split; reflexivity|].
  destruct v as [r|]; [|contradiction]. simpl. rewrite IH1, IH2. split; reflexivity.
Qed.

(** C7. For a non-empty bootstrap distribution of real values, the
    confidence interval taken at the percentiles 2.5 and 97.5 is a pair
    (lower, upper) with lower <= upper. *)
Theorem confidence_interval_ordered (a : list npfloat) :
  a <> [] ->
  Forall is_num a ->
  exists lower upper : R,
    np_percentile a [5 # 2; 195 # 2]%Q = inr [Num lower; Num upper] /\
    lower <= upper /\
    fle (Num lower) (Num upper).
Proof.
  intros Hne Hnum. destruct (reals_all_num a Hnum) as [Hnan Hlen].
  exists (quantile_sorted (sort (reals a)) (5 # 2)),
         (quantile_sorted (sort (reals a)) (195 # 2)).
  assert (Hle : quantile_sorted (sort (reals a)) (5 # 2)
                <= quantile_sorted (sort (reals a)) (195 # 2)).
  { apply quantile_sorted_monotone.
    - apply sort_sorted.
    - intros E. apply (f_equal (@length R)) in E.
      rewrite sort_length, Hlen in E. destruct a; [congruence | discriminate].
    - discriminate.
    - discriminate.
    - discriminate. }
  split; [|split; [exact Hle | exact Hle]].
  unfold np_percentile.
  change (forallb (fun q : Q => Qle_bool 0 q && Qle_bool q 100) [5 # 2; 195 # 2]%Q)
    with true.
  cbn [negb]. destruct a as [|v a]; [congruence|].
  rewrite Hnan. reflexivity.
Qed.

Lemma confidence_interval_ordered_witness :
  exists lower upper : R,
    np_percentile [Num (1 / 2); Num (-1 / 4); Num (3 / 4)] [5 # 2; 195 # 2]%Q
      = inr [Num lower; Num upper] /\
    lower <= upper /\
    fle (Num lower) (Num upper).
Proof.
  apply (confidence_interval_ordered [Num (1 / 2); Num (-1 / 4); Num (3 / 4)]).
  - discriminate.
  - repeat constructor.
Defined.

(** ** The histogram *)













Lemma fdiv_num (x b : R) : b <> 0 -> fdiv (Num x) b = Num (x / b).
Proof.
  intros Hb. unfold fdiv. destruct (Req_dec_T b 0); [contradiction | reflexivity].
Qed.


(** * The rounds of the bootstrap, draw by draw *)

Section Rounds.

Context {G : Type} {RS : RandomSource G}.


Lemma after_draws_add (high a b : nat) (g : G) :
  after_draws high (a + b) g = after_draws high b (after_draws high a g).
Proof.
  revert g. induction a as [|a IH]; intros g; [reflexivity|].
  cbn [Nat.add after_draws]. apply IH.
Qed.

Lemma drawn_add (high a j : nat) (g : G) :
  drawn high (a + j) g = drawn high j (after_draws high a g).
Proof. unfold drawn. rewrite after_draws_add. reflexivity. Qed.

(** [randint]'s loop returns the successive draws. *)
Lemma draw_indices_drawn (high size : nat) (g : G) :
  draw_indices high size g =
  (map (fun j => drawn high j g) (seq 0 size), after_draws high size g).
Proof.
  revert g. induction size as [|k IH]; intros g; [reflexivity|].
  cbn [draw_indices after_draws].
  destruct (bounded_draw high g) as [i g1] eqn:E.
  rewrite IH. cbn [snd seq map]. f_equal. f_equal.
  - unfold drawn. cbn [after_draws]. rewrite E. reflexivity.
  - rewrite <- seq_shift, map_map. apply map_ext. intros j.
    unfold drawn. cbn [after_draws]. rewrite E. reflexivity.
Qed.

Lemma index_rounds_drawn (N n : nat) (g : G) :
  index_rounds N n g =
  (map (fun r => map (fun j => drawn N (r * N + j) g) (seq 0 N)) (seq 0 n),
   after_draws N (n * N) g).
Proof.
  revert g. induction n as [|k IH]; intros g; [reflexivity|].
  cbn [index_rounds]. rewrite draw_indices_drawn, IH.
  cbn [seq map Nat.mul Nat.add]. f_equal.
  - f_equal. rewrite <- seq_shift, map_map. apply map_ext. intros r.
    apply map_ext. intros j. cbn [Nat.mul].
    rewrite <- Nat.add_assoc. symmetry. apply drawn_add.
  - symmetry. apply after_draws_add.
Qed.

Lemma gather_drawn (d : ndarray) (r : nat) (g : G) :
  gather d (map (fun j => drawn (length d) (r * length d + j) g) (seq 0 (length d)))
  = round_sample d r g.
Proof. unfold gather, round_sample. apply map_map. Qed.



Section WithStatistic.

Variable statistic : ndarray -> npfloat.

Lemma bootstrap_loop_with_run (data : addr) (d : ndarray) (n : nat) :
  forall (acc : list npfloat) (w : world),
    nth_error (heap w) data = Some d ->
    bootstrap_loop_with statistic data n acc w =
    inr (acc ++ map (fun idx => statistic (gather d idx))
                    (fst (index_rounds (length d) n (rng w))),
         World (snd (index_rounds (length d) n (rng w)))
               (heap w ++ map (gather d) (fst (index_rounds (length d) n (rng w))))).
Proof.
  induction n as [|k IH]; intros acc w Hd.
  - simpl. unfold ret. rewrite !app_nil_r. destruct w; reflexivity.
  - cbn [bootstrap_loop_with index_rounds]. unfold bind at 1.
    rewrite (resample_run data d w Hd).
    destruct (draw_indices (length d) (length d) (rng w)) as [idx g1] eqn:E1.
    cbn [fst snd].
    unfold bind, deref. cbn [heap].
    rewrite nth_error_app2 by lia. rewrite Nat.sub_diag. cbn [nth_error].
    rewrite IH by (cbn [heap]; apply nth_error_heap_app; exact Hd).
    cbn [rng heap].
    destruct (index_rounds (length d) k g1) as [rest g2]. cbn [fst snd map].
    rewrite <- !app_assoc. reflexivity.
Qed.

(** A run of the loop, in terms of the draws. *)
Lemma bootstrap_correlation_with_run (data : addr) (d : ndarray) (B : nat) (w : world) :
  nth_error (heap w) data = Some d ->
  bootstrap_correlation_with statistic data B w =
  inr (map (fun r => statistic (round_sample d r (rng w))) (seq 0 B),
       World (after_draws (length d) (B * length d) (rng w))
             (heap w ++ map (fun r => round_sample d r (rng w)) (seq 0 B))).
Proof.
  intros Hd. unfold bootstrap_correlation_with.
  rewrite (bootstrap_loop_with_run data d B [] w Hd).
  rewrite index_rounds_drawn. cbn [fst snd app]. rewrite !map_map.
  f_equal. f_equal.
  - apply map_ext. intros r. rewrite gather_drawn. reflexivity.
  - f_equal. f_equal. apply map_ext. intros r. apply gather_drawn.
Qed.

End WithStatistic.

(** The loop of the program is the loop over NumPy's statistic, with
    [np.corrcoef(s.T)[0, 1]] for the statistic. *)
Lemma bootstrap_loop_as_with (data : addr) (n : nat) :
  forall (acc : list npfloat) (w : world),
    bootstrap_loop data n acc w =
    bootstrap_loop_with (fun s => entry (corrcoef (transpose s)) 0 1) data n acc w.
Proof.
  induction n as [|k IH]; intros acc w; [reflexivity|].
  cbn [bootstrap_loop bootstrap_loop_with]. unfold bind.
  destruct (resample data w) as [e|[sample w1]]; [reflexivity|].
  destruct (deref sample w1) as [e|[s w2]]; [reflexivity|].
  apply IH.
Qed.


(** C4, as the program has it.  No round is treated specially, a sample
    without variance included: whatever value NumPy's correlation
    coefficient returns for the sample of a round, NaN included, is
    appended, and the round is not drawn again, so that B rounds make
    exactly B * |data| draws and give B elements.  The summaries leave
    nothing out: when the output contains a NaN, its mean is NaN, both
    bounds of its percentile interval are NaN, and its histogram is
    refused with a ValueError.  This holds whatever function of the
    sample the statistic is; the statistic the program applies is
    [np.corrcoef(sample.T)[0, 1]] (last part). *)
Theorem bootstrap_no_degenerate_policy
  (statistic : ndarray -> npfloat)
  (data : addr) (d : ndarray) (B : nat) (w : world) :
  nth_error (heap w) data = Some d ->
  exists (out : list npfloat) (w' : world),
    bootstrap_correlation_with statistic data B w = inr (out, w') /\
    out = map (fun r => statistic (round_sample d r (rng w))) (seq 0 B) /\
    length out = B /\
    rng w' = after_draws (length d) (B * length d) (rng w) /\
    (forall r : nat,
        (r < B)%nat ->
        statistic (round_sample d r (rng w)) = NaN ->
        nth_error out r = Some NaN) /\
    (has_nan out = true ->
     np_mean out = NaN /\
     np_percentile out [5 # 2; 195 # 2]%Q = inr [NaN; NaN] /\
     summarize out = inl ValueError) /\
    bootstrap_correlation data B w =
    bootstrap_correlation_with (fun s => entry (corrcoef (transpose s)) 0 1) data B w.
Proof.
  intros Hd. eexists. eexists.
  split; [apply bootstrap_correlation_with_run; exact Hd|].
  split; [reflexivity|].
  split; [rewrite length_map, length_seq; reflexivity|].
  split; [reflexivity|].
  split.
  - intros r Hr Hnan. rewrite nth_error_map.
    rewrite (nth_error_nth' (seq 0 B) O) by (rewrite length_seq; exact Hr).
    rewrite seq_nth by exact Hr. cbn [option_map Nat.add]. rewrite Hnan. reflexivity.
  - split; [|apply bootstrap_loop_as_with].
    intros Hn.
    split; [apply np_mean_nan; exact Hn|].
    split; [apply np_percentile_nan; exact Hn|].
    unfold summarize. rewrite np_histogram_nan by exact Hn. reflexivity.
Qed.

End Rounds.


Lemma bootstrap_no_degenerate_policy_witness :
  let stat := fun s : ndarray => entry (corrcoef (transpose s)) 0 1 in
  let w := two_points_world [0; 0; 0; 1]%Z in
  exists (out : list npfloat) (w' : world),
    bootstrap_correlation_with stat 0%nat 2%nat w = inr (out, w') /\
    out = map (fun r => stat (round_sample two_points r (rng w))) (seq 0 2) /\
    length out = 2%nat /\
    rng w' = after_draws (length two_points) (2 * length two_points) (rng w) /\
    (forall r : nat,
        (r < 2)%nat ->
        stat (round_sample two_points r (rng w)) = NaN ->
        nth_error out r = Some NaN) /\
    (has_nan out = true ->
     np_mean out = NaN /\
     np_percentile out [5 # 2; 195 # 2]%Q = inr [NaN; NaN] /\
     summarize out = inl ValueError) /\
    bootstrap_correlation 0%nat 2%nat w =
    bootstrap_correlation_with (fun s => entry (corrcoef (transpose s)) 0 1)
      0%nat 2%nat w.
Proof.
  cbv zeta.
  exact (bootstrap_no_degenerate_policy
           (fun s : ndarray => entry (corrcoef (transpose s)) 0 1)
           0%nat two_points 2%nat (two_points_world [0; 0; 0; 1]%Z)
           eq_refl).
Defined.

(** * The histogram and rounding *)











(** * Further properties of the program *)

(** ** More on the bootstrap engine *)

Section BootstrapMore.

Context {G : Type} {RS : RandomSource G}.

Lemma index_rounds_app (N n1 n2 : nat) (g : G) :
  index_rounds N (n1 + n2) g =
  (fst (index_rounds N n1 g) ++ fst (index_rounds N n2 (snd (index_rounds N n1 g))),
   snd (index_rounds N n2 (snd (index_rounds N n1 g)))).
Proof.
  revert g. induction n1 as [|k IH]; intros g.
  - simpl. apply surjective_pairing.
  - cbn [Nat.add index_rounds].
    destruct (draw_indices N N g) as [idx g1]. rewrite IH.
    destruct (index_rounds N k g1) as [r1 g2]. reflexivity.
Qed.

(** X1. Iterations can be run in batches: B1 iterations followed by B2
    iterations on the state the first batch leaves give, joined, what
    B1 + B2 iterations give at once, and leave the same state. *)
Theorem bootstrap_correlation_split
  (data : addr) (d : ndarray) (B1 B2 : nat) (w : world) :
  nth_error (heap w) data = Some d ->
  exists (out1 out2 : list npfloat) (w1 w2 : world),
    bootstrap_correlation data B1 w = inr (out1, w1) /\
    bootstrap_correlation data B2 w1 = inr (out2, w2) /\
    bootstrap_correlation data (B1 + B2) w = inr (out1 ++ out2, w2).
Proof.
  intros Hd. eexists. eexists. eexists. eexists.
  split; [apply bootstrap_correlation_run; exact Hd|].
  split.
  - apply bootstrap_correlation_run. cbn [heap].
    apply nth_error_heap_app. exact Hd.
  - rewrite (bootstrap_correlation_run data d (B1 + B2) w Hd).
    rewrite index_rounds_app. cbn [fst snd rng heap].
    rewrite !map_app, app_assoc. reflexivity.
Qed.

End BootstrapMore.

Lemma bootstrap_correlation_split_witness :
  exists (out1 out2 : list npfloat) (w1 w2 : world),
    bootstrap_correlation 0%nat 1%nat (two_points_world [0; 1; 1; 1]%Z) = inr (out1, w1) /\
    bootstrap_correlation 0%nat 1%nat w1 = inr (out2, w2) /\
    bootstrap_correlation 0%nat (1 + 1)%nat (two_points_world [0; 1; 1; 1]%Z)
      = inr (out1 ++ out2, w2).
Proof.
  apply (bootstrap_correlation_split 0%nat two_points 1%nat 1%nat
           (two_points_world [0; 1; 1; 1]%Z)).
  reflexivity.
Defined.

(** ** More on the summaries *)

(** Values that are real numbers between two bounds. *)
Lemma bounded_all_num (lo hi : R) (a : list npfloat) :
  Forall (fun v => exists r : R, v = Num r /\ lo <= r <= hi) a ->
  Forall is_num a /\ Forall (fun r => lo <= r <= hi) (reals a).
Proof.
  induction 1 as [|v a (r & -> & Hr) _ [IH1 IH2]]; simpl.
  - split; constructor.
  - split; constructor; simpl; auto.
Qed.

Lemma fold_fadd_reals (a : list npfloat) (acc : R) :
  has_nan a = false ->
  fold_left fadd a (Num acc) = Num (acc + Rsum (reals a)).
Proof.
  revert acc. induction a as [|v a IH]; intros acc H; simpl in *.
  - f_equal. lra.
  - destruct v as [r|]; simpl in H; [|discriminate].
    rewrite IH by exact H. simpl. f_equal. lra.
Qed.

Lemma Rsum_between (lo hi : R) (l : list R) :
  Forall (fun r => lo <= r <= hi) l ->
  INR (length l) * lo <= Rsum l <= INR (length l) * hi.
Proof.
  induction 1 as [|r l Hr _ IH].
  - simpl. lra.
  - change (length (r :: l)) with (S (length l)). rewrite S_INR.
    cbn [Rsum fold_right]. fold (Rsum l). lra.
Qed.

Lemma mean_value_between (lo hi : R) (l : list R) :
  l <> [] ->
  Forall (fun r => lo <= r <= hi) l ->
  lo <= (0 + Rsum l) / INR (length l) <= hi.
Proof.
  intros Hne Hr.
  assert (Hn : 0 < INR (length l)).
  { apply lt_0_INR. destruct l; [congruence | simpl; lia]. }
  pose proof (Rsum_between lo hi l Hr) as Hs.
  rewrite Rplus_0_l. split.
  - apply Rmult_le_reg_r with (INR (length l)); [exact Hn|].
    unfold Rdiv. rewrite Rmult_assoc, Rinv_l by lra. lra.
  - apply Rmult_le_reg_r with (INR (length l)); [exact Hn|].
    unfold Rdiv. rewrite Rmult_assoc, Rinv_l by lra. lra.
Qed.

Lemma reals_nonempty (a : list npfloat) :
  a <> [] -> Forall is_num a -> reals a <> [].
Proof.
  intros Hne Hnum E. destruct (reals_all_num a Hnum) as [_ Hlen].
  rewrite E in Hlen. destruct a; [congruence | discriminate].
Qed.

(** X7. The mean of a non-empty list of correlations in [-1, 1] is a
    real number in [-1, 1]. *)
Theorem np_mean_in_unit_interval (a : list npfloat) :
  a <> [] ->
  Forall (fun v => exists r : R, v = Num r /\ -1 <= r <= 1) a ->
  exists m : R, np_mean a = Num m /\ -1 <= m <= 1.
Proof.
  intros Hne Hb. destruct (bounded_all_num (-1) 1 a Hb) as [Hnum Hr].
  destruct (reals_all_num a Hnum) as [Hnan Hlen].
  unfold np_mean. rewrite fold_fadd_reals by exact Hnan.
  rewrite fdiv_num
    by (apply not_0_INR; destruct a; [congruence | discriminate]).
  eexists. split; [reflexivity|].
  rewrite <- Hlen. apply mean_value_between; [|exact Hr].
  apply reals_nonempty; assumption.
Qed.

Lemma np_mean_in_unit_interval_witness :
  exists m : R, np_mean [Num (1 / 2); Num (-1 / 4)] = Num m /\ -1 <= m <= 1.
Proof.
  apply (np_mean_in_unit_interval [Num (1 / 2); Num (-1 / 4)]).
  - discriminate.
  - repeat constructor; eexists; (split; [reflexivity | lra]).
Defined.

(** Sorting rearranges. *)
Lemma insert_sorted_perm (x : R) (l : list R) :
  Permutation (insert_sorted x l) (x :: l).
Proof.
  induction l as [|y l IH]; simpl; [apply Permutation_refl|].
  destruct (Rleb x y); [apply Permutation_refl|].
  eapply perm_trans; [apply perm_skip; exact IH | apply perm_swap].
Qed.

Lemma sort_perm (l : list R) : Permutation (sort l) l.
Proof.
  induction l as [|x l IH]; simpl; [apply perm_nil|].
  eapply perm_trans; [apply insert_sorted_perm | apply perm_skip; exact IH].
Qed.

(** The ends of the percentile scale. *)
Lemma quantile_sorted_0 (s : list R) :
  s <> [] -> quantile_sorted s 0 = nth 0 s 0.
Proof.
  intros Hne. unfold quantile_sorted. cbv zeta. rewrite !lerp_linear.
  pose proof (Q2R_virtual_index (length s) 0) as E.
  change (Q2R 0) with (Q2R (inject_Z 0)) in E. rewrite Q2R_inject_Z in E.
  replace ((INR (length s) - 1) * (0 / 100)) with 0 in E by (unfold Rdiv; ring).
  set (v := ((inject_Z (Z.of_nat (length s)) - 1) * (0 / 100))%Q) in *.
  destruct (Qle_bool (inject_Z (Z.of_nat (length s)) - 1) v) eqn:B.
  - apply Qle_bool_true_R in B.
    rewrite Q2R_minus, Q2R_inject_Z, <- INR_IZR_INZ, E in B.
    change (Q2R 1) with (Q2R (inject_Z 1)) in B. rewrite Q2R_inject_Z in B.
    rewrite last_nth_pred by exact Hne.
    assert (Hl : length s = 1%nat).
    { destruct s as [|x [|y s']]; [congruence | reflexivity |].
      exfalso. change (length (x :: y :: s')) with (S (S (length s'))) in B.
      rewrite !S_INR in B. pose proof (pos_INR (length s')). lra. }
    rewrite Hl. simpl. ring.
  - pose proof (Qfloor_bounds v) as [Hlo Hhi]. rewrite E in Hlo, Hhi.
    assert (Hf : Qfloor v = 0%Z).
    { assert (H : IZR (Qfloor v) < IZR 1) by lra.
      assert (H' : IZR (-1) < IZR (Qfloor v)) by lra.
      apply lt_IZR in H, H'. lia. }
    rewrite Hf. cbn [Z.to_nat]. rewrite Q2R_minus, Q2R_inject_Z, E. ring.
Qed.

Lemma quantile_sorted_100 (s : list R) :
  quantile_sorted s 100 = last s 0.
Proof.
  unfold quantile_sorted. cbv zeta. rewrite !lerp_linear.
  pose proof (Q2R_virtual_index (length s) 100) as E.
  change (Q2R 100) with (Q2R (inject_Z 100)) in E. rewrite Q2R_inject_Z in E.
  replace ((INR (length s) - 1) * (100 / 100)) with (INR (length s) - 1) in E by field.
  set (v := ((inject_Z (Z.of_nat (length s)) - 1) * (100 / 100))%Q) in *.
  replace (Qle_bool (inject_Z (Z.of_nat (length s)) - 1) v) with true; [ring|].
  symmetry. apply Qle_bool_iff. apply Rle_Qle.
  rewrite Q2R_minus, Q2R_inject_Z, <- INR_IZR_INZ, E.
  change (Q2R 1) with (Q2R (inject_Z 1)). rewrite Q2R_inject_Z. lra.
Qed.

Lemma quantile_sorted_between (lo hi : R) (l : list R) (q : Q) :
  l <> [] ->
  Forall (fun r => lo <= r <= hi) l ->
  (0 <= q)%Q -> (q <= 100)%Q ->
  lo <= quantile_sorted (sort l) q <= hi.
Proof.
  intros Hne Hb H0 H100.
  assert (Hs : sort l <> []).
  { intros E. apply (f_equal (@length R)) in E. rewrite sort_length in E.
    destruct l; [congruence | discriminate]. }
  assert (Hin : forall y : R, In y (sort l) -> lo <= y <= hi).
  { intros y Hy. rewrite Forall_forall in Hb. apply Hb.
    apply (Permutation_in y (sort_perm l)). exact Hy. }
  assert (Hlen : (0 < length (sort l))%nat)
    by (destruct (sort l); [congruence | simpl; lia]).
  pose proof (quantile_sorted_monotone (sort l) 0 q (sort_sorted l) Hs
                ltac:(apply Qle_refl) H0 H100) as H1.
  pose proof (quantile_sorted_monotone (sort l) q 100 (sort_sorted l) Hs
                H0 H100 ltac:(apply Qle_refl)) as H2.
  rewrite quantile_sorted_0 in H1 by exact Hs.
  rewrite quantile_sorted_100, last_nth_pred in H2 by exact Hs.
  pose proof (Hin (nth 0 (sort l) 0) ltac:(apply nth_In; lia)) as Ha.
  pose proof (Hin (nth (length (sort l) - 1) (sort l) 0) ltac:(apply nth_In; lia)) as Hz.
  lra.
Qed.

Lemma np_percentile_values (a : list npfloat) :
  a <> [] ->
  has_nan a = false ->
  np_percentile a [5 # 2; 195 # 2]%Q
  = inr [Num (quantile_sorted (sort (reals a)) (5 # 2));
         Num (quantile_sorted (sort (reals a)) (195 # 2))].
Proof.
  intros Hne Hnan. unfold np_percentile.
  change (forallb (fun q : Q => Qle_bool 0 q && Qle_bool q 100) [5 # 2; 195 # 2]%Q)
    with true.
  cbn [negb]. destruct a as [|v a]; [congruence|].
  rewrite Hnan. reflexivity.
Qed.

Lemma quantile_interval_between (lo hi : R) (l : list R) :
  l <> [] ->
  Forall (fun r => lo <= r <= hi) l ->
  lo <= quantile_sorted (sort l) (5 # 2) /\
  quantile_sorted (sort l) (5 # 2) <= quantile_sorted (sort l) (195 # 2) /\
  quantile_sorted (sort l) (195 # 2) <= hi.
Proof.
  intros Hne Hr.
  pose proof (quantile_sorted_between lo hi l (5 # 2) Hne Hr
                ltac:(discriminate) ltac:(discriminate)) as H1.
  pose proof (quantile_sorted_between lo hi l (195 # 2) Hne Hr
                ltac:(discriminate) ltac:(discriminate)) as H2.
  assert (Hs : sort l <> []).
  { intros E. apply (f_equal (@length R)) in E. rewrite sort_length in E.
    destruct l; [congruence | discriminate]. }
  pose proof (quantile_sorted_monotone (sort l) (5 # 2) (195 # 2)
                (sort_sorted _) Hs ltac:(discriminate) ltac:(discriminate)
                ltac:(discriminate)) as H3.
  lra.
Qed.

(** X8. Both bounds of the percentile interval of a non-empty list of
    real values lie between any two bounds the values lie between: the
    interval of correlations in [-1, 1] is inside [-1, 1]. *)
Theorem confidence_interval_between (lo hi : R) (a : list npfloat) :
  a <> [] ->
  Forall (fun v => exists r : R, v = Num r /\ lo <= r <= hi) a ->
  exists lower upper : R,
    np_percentile a [5 # 2; 195 # 2]%Q = inr [Num lower; Num upper] /\
    lo <= lower /\ lower <= upper /\ upper <= hi.
Proof.
  intros Hne Hb. destruct (bounded_all_num lo hi a Hb) as [Hnum Hr].
  destruct (reals_all_num a Hnum) as [Hnan _].
  eexists. eexists.
  split; [apply np_percentile_values; assumption|].
  apply quantile_interval_between; [|exact Hr].
  apply reals_nonempty; assumption.
Qed.

Lemma confidence_interval_between_witness :
  exists lower upper : R,
    np_percentile [Num (1 / 2); Num (-1 / 4)] [5 # 2; 195 # 2]%Q
      = inr [Num lower; Num upper] /\
    -1 <= lower /\ lower <= upper /\ upper <= 1.
Proof.
  apply (confidence_interval_between (-1) 1 [Num (1 / 2); Num (-1 / 4)]).
  - discriminate.
  - repeat constructor; eexists; (split; [reflexivity | lra]).
Defined.

(** Inserting two values into a list in either order gives the same
    list. *)
Lemma insert_sorted_comm (x y : R) (l : list R) :
  insert_sorted x (insert_sorted y l) = insert_sorted y (insert_sorted x l).
Proof.
  induction l as [|z l IH]; simpl.
  - destruct (Rleb x y) eqn:E1, (Rleb y x) eqn:E2; try reflexivity.
    + apply Rleb_true in E1, E2. assert (x = y) by lra. subst. reflexivity.
    + apply Rleb_false in E1, E2. lra.
  - destruct (Rleb y z) eqn:Eyz, (Rleb x z) eqn:Exz; simpl;
      rewrite ?Eyz, ?Exz;
      destruct (Rleb x y) eqn:Exy, (Rleb y x) eqn:Eyx; simpl;
      rewrite ?Eyz, ?Exz; try reflexivity;
      try (rewrite IH; reflexivity);
      repeat match goal with
             | H : Rleb _ _ = true |- _ => apply Rleb_true in H
             | H : Rleb _ _ = false |- _ => apply Rleb_false in H
             end;
      try lra;
      try (assert (x = y) by lra; subst; reflexivity).
Qed.

Lemma sort_perm_eq (l l' : list R) : Permutation l l' -> sort l = sort l'.
Proof.
  induction 1 as [|x l l' _ IH|x y l|l l' l'' _ IH1 _ IH2]; simpl.
  - reflexivity.
  - now rewrite IH.
  - apply insert_sorted_comm.
  - now rewrite IH1.
Qed.

Lemma reals_perm (a a' : list npfloat) :
  Permutation a a' -> Permutation (reals a) (reals a').
Proof.
  induction 1 as [|v a a' _ IH|v v' a|a a' a'' _ IH1 _ IH2]; simpl.
  - apply perm_nil.
  - destruct v; [apply perm_skip|]; exact IH.
  - destruct v, v'; try apply Permutation_refl. apply perm_swap.
  - eapply perm_trans; eassumption.
Qed.

Lemma has_nan_perm (a a' : list npfloat) :
  Permutation a a' -> has_nan a = has_nan a'.
Proof.
  unfold has_nan.
  induction 1 as [|v a a' _ IH|v v' a|a a' a'' _ IH1 _ IH2]; simpl.
  - reflexivity.
  - now rewrite IH.
  - destruct (is_nan v), (is_nan v'); reflexivity.
  - now rewrite IH1.
Qed.

(** X9. The percentiles do not depend on the order of the bootstrap
    distribution: a reordered list, with or without NaN, empty or not,
    gives the same result for every list of percentiles. *)
Theorem percentile_order (a a' : list npfloat) :
  Permutation a a' ->
  forall qs : list Q, np_percentile a qs = np_percentile a' qs.
Proof.
  intros Hp qs. unfold np_percentile.
  rewrite (has_nan_perm a a' Hp).
  rewrite (sort_perm_eq _ _ (reals_perm a a' Hp)).
  destruct a as [|v a], a' as [|v' a']; try reflexivity.
  - apply Permutation_nil in Hp. discriminate.
  - apply Permutation_sym, Permutation_nil in Hp. discriminate.
Qed.

Lemma percentile_order_witness :
  Permutation [Num (1 / 2); Num (-1 / 4); Num 0] [Num (-1 / 4); Num (1 / 2); Num 0] /\
  np_percentile [Num (1 / 2); Num (-1 / 4); Num 0] [5 # 2; 195 # 2]%Q
  = np_percentile [Num (-1 / 4); Num (1 / 2); Num 0] [5 # 2; 195 # 2]%Q.
Proof.
  split; [apply perm_swap|].
  apply (percentile_order [Num (1 / 2); Num (-1 / 4); Num 0]
                          [Num (-1 / 4); Num (1 / 2); Num 0]).
  apply perm_swap.
Defined.

(** ** The grid of the regression line *)



(** ** The whole script *)




Section Script.

Context {G : Type} {RS : RandomSource G} {LA : LinAlg}.


End Script.

